(** * checkpoint: errors decorated with caller information

    A shallow embedding of the Go package [checkpoint] (checkpoint.go): the
    builders [From] and [Wrap], the option [IgnoreEOF], and the methods of
    [Checkpoint] ([Error], [Unwrap], [Is], [As], [File], [Line]), together
    with the parts of the Go standard library they call
    ([errors.Is], [errors.As], [fmt.Sprintf], [strings.ReplaceAll],
    [filepath.Base], the [==] of interface values). *)

From Stdlib Require Import Bool Arith ZArith Lia List Ascii String DecimalString.
Import ListNotations.

Local Open Scope string_scope.

(** ** Strings *)

(** The two control characters of the rendering: "\n" and "\t". *)
Definition nl : string := String "010"%char EmptyString.
Definition tab : string := String "009"%char EmptyString.

(** [strings.HasPrefix]. *)
Fixpoint strings_HasPrefix (s pre : string) : bool :=
  match pre with
  | EmptyString => true
  | String p pre' =>
      match s with
      | EmptyString => false
      | String c s' => Ascii.eqb c p && strings_HasPrefix s' pre'
      end
  end.

(** The scan of [strings.ReplaceAll] for a non-empty [old]: left to right,
    every non-overlapping occurrence of [old] becomes [new].  [skip] counts
    the bytes of a matched occurrence that are still to be dropped. *)
Fixpoint replace_from (old new : string) (skip : nat) (s : string) : string :=
  match s with
  | EmptyString => EmptyString
  | String c s' =>
      match skip with
      | S k => replace_from old new k s'
      | O =>
          if strings_HasPrefix s old
          then new ++ replace_from old new (String.length old - 1) s'
          else String c (replace_from old new O s')
      end
  end.

(** With an empty [old], Go inserts [new] before every character and at the
    end of the string (here: every byte; the program never does this). *)
Fixpoint intersperse (new s : string) : string :=
  match s with
  | EmptyString => new
  | String c s' => new ++ String c (intersperse new s')
  end.

(** [strings.ReplaceAll(s, old, new)]. *)
Definition strings_ReplaceAll (s old new : string) : string :=
  match old with
  | EmptyString => intersperse new s
  | String _ _ => replace_from old new O s
  end.

(** The [%d] verb of [fmt.Sprintf] on an [int]. *)
Definition fmt_d (n : Z) : string := NilZero.string_of_int (Z.to_int n).

(** *** filepath.Base (with "/" as the separator, as in the paths that
    [runtime.Caller] reports) *)

Definition IsPathSeparator (c : ascii) : bool := Ascii.eqb c "/"%char.

(** The bytes of a string, and back. *)
Definition bytes_of : string -> list ascii := list_ascii_of_string.
Definition string_of : list ascii -> string := string_of_list_ascii.

(** [for len(path) > 0 && IsPathSeparator(path[len(path)-1])]: drop the
    trailing separators; the argument is the path reversed. *)
Fixpoint drop_separators (rev_path : list ascii) : list ascii :=
  match rev_path with
  | c :: r => if IsPathSeparator c then drop_separators r else rev_path
  | [] => []
  end.

(** The last element: scanning from the end, the bytes before the first
    separator met; the argument is the path reversed. *)
Fixpoint last_element (rev_path : list ascii) : list ascii :=
  match rev_path with
  | c :: r => if IsPathSeparator c then [] else c :: last_element r
  | [] => []
  end.

Definition filepath_Base (path : string) : string :=
  match path with
  | EmptyString => "."
  | _ =>
      let stripped := drop_separators (rev (bytes_of path)) in
      match rev (last_element stripped) with
      | [] => "/"
      | elem => string_of elem
      end
  end.

(** ** Error values *)

(** A Go type, as far as the program can observe it: its name and whether
    its values are comparable with [==]. *)
Record gotype : Type := mkType { ty_name : string; ty_comparable : bool }.

Definition gotype_eqb (a b : gotype) : bool :=
  String.eqb (ty_name a) (ty_name b)
  && Bool.eqb (ty_comparable a) (ty_comparable b).

(** What [==] inspects of a value of a comparable foreign type.
    - [Word n]: a scalar, a string or a pointer; two are equal when they
      are the same.
    - [NaN]: a floating-point not-a-number, unequal to everything, itself
      included.
    - [NilIface], [Iface ty c]: a field of interface type, nil or holding
      a value of dynamic type [ty] with content [c].
    - [Struct fields]: a struct or an array, field by field. *)
#[warnings="-register-all"]
Inductive content : Type :=
| Word (n : N)
| NaN
| NilIface
| Iface (ty : gotype) (c : content)
| Struct (fields : list content).

(** [type Checkpoint struct { err, prev error; callerOk bool; file string;
    line int }], over the type [E] of its two [error] fields. *)
Record CheckpointOf (E : Type) : Type := mkCheckpoint {
  err : E;
  prev : E;
  callerOk : bool;
  file : string;
  line : Z
}.

Arguments mkCheckpoint {E} _ _ _ _ _.
Arguments err {E} _.
Arguments prev {E} _.
Arguments callerOk {E} _.
Arguments file {E} _.
Arguments line {E} _.

(** The dynamic value held by a non-nil [error] interface value.
    - [Foreign ty key msg inner]: a value of a type [ty] declared outside
      the package, without [Is] or [As] methods of its own.  [key] is what
      [==] inspects of it when [ty] is comparable (for a pointer type such
      as [*errors.errorString], the address: [Word a]); [msg] is what
      [Error()] returns; [inner] is what [Unwrap()] returns ([None] also
      when the type has no such method).
    - [CheckpointVal c]: a [Checkpoint] struct value, what [From] and [Wrap]
      return.
    - [CheckpointPtr a c]: a non-nil [*Checkpoint], the address [a] of a
      struct [c]. *)
#[warnings="-register-all"]
Inductive value : Type :=
| Foreign (ty : gotype) (key : content) (msg : string) (inner : option value)
| CheckpointVal (c : CheckpointOf (option value))
| CheckpointPtr (a : N) (c : CheckpointOf (option value)).

(** A Go [error]: an interface value, [None] for nil. *)
Abbreviation error := (option value).
Abbreviation Checkpoint := (CheckpointOf (option value)).

(** [errors.New(msg)], allocated at address [a]. *)
Definition errorString : gotype := mkType "*errors.errorString" true.
Definition errors_New (a : N) (msg : string) : value :=
  Foreign errorString (Word a) msg None.

(** The two sentinels of package [io]. *)
Definition io_EOF : value := errors_New 1 "EOF".
Definition io_ErrUnexpectedEOF : value := errors_New 2 "unexpected EOF".

(** The dynamic type of a value is comparable: a struct of interfaces,
    a bool, a string and an int is, and so is every pointer. *)
Definition type_comparable (v : value) : bool :=
  match v with
  | Foreign ty _ _ _ => ty_comparable ty
  | CheckpointVal _ => true
  | CheckpointPtr _ _ => true
  end.

(** ** Comparison of interface values *)

(** Go's [==] can fail: comparing two interface values with the same
    non-comparable dynamic type is a run-time panic.  A computation that
    may panic returns an [option]: [None] is the panic. *)
Definition bind {A B : Type} (m : option A) (k : A -> option B) : option B :=
  match m with
  | Some a => k a
  | None => None
  end.

Notation "x <- m ;; k" := (bind m (fun x => k))
  (at level 61, m at next level, right associativity).

(** [x == y] on the contents of two values of one comparable type.  Two
    interface fields with different dynamic types are unequal; with the
    same dynamic type they panic when that type is not comparable.  The
    fields of a struct are compared in source order, and the comparison
    stops at the first pair that differs. *)
Fixpoint content_eq (x y : content) {struct x} : option bool :=
  match x, y with
  | Word a, Word b => Some (N.eqb a b)
  | NilIface, NilIface => Some true
  | Iface tx cx, Iface ty cy =>
      if gotype_eqb tx ty
      then if ty_comparable tx then content_eq cx cy else None
      else Some false
  | Struct fx, Struct fy =>
      (fix fields (l1 l2 : list content) {struct l1} : option bool :=
         match l1, l2 with
         | [], [] => Some true
         | a :: l1', b :: l2' =>
             same <- content_eq a b ;;
             if same then fields l1' l2' else Some false
         | _, _ => Some false
         end) fx fy
  | _, _ => Some false
  end.

(** The comparison of the fields of two structs, by name. *)
Fixpoint fields_eq (l1 l2 : list content) : option bool :=
  match l1, l2 with
  | [], [] => Some true
  | a :: l1', b :: l2' =>
      same <- content_eq a b ;;
      if same then fields_eq l1' l2' else Some false
  | _, _ => Some false
  end.

(** [a == b] on interface values, given the comparison [eqv] of two
    non-nil dynamic values. *)
Definition iface_eq_with (eqv : value -> value -> option bool)
  (a b : error) : option bool :=
  match a, b with
  | None, None => Some true
  | Some x, Some y => eqv x y
  | _, _ => Some false
  end.

(** [x == y] on dynamic values.  Different dynamic types: false.  The same
    foreign type: a panic when it is not comparable, else the contents
    decide (and may panic in turn).
    Two [Checkpoint] structs: the fields in source order, stopping at the
    first that differs.  Two [*Checkpoint]: the addresses. *)
Fixpoint value_eq (x y : value) {struct x} : option bool :=
  match x, y with
  | Foreign tx kx _ _, Foreign ty ky _ _ =>
      if gotype_eqb tx ty
      then if ty_comparable tx then content_eq kx ky else None
      else Some false
  | CheckpointVal c, CheckpointVal d =>
      e <- iface_eq_with value_eq (err c) (err d) ;;
      if negb e then Some false else
      p <- iface_eq_with value_eq (prev c) (prev d) ;;
      if negb p then Some false else
      Some (Bool.eqb (callerOk c) (callerOk d)
            && String.eqb (file c) (file d)
            && Z.eqb (line c) (line d))
  | CheckpointPtr a _, CheckpointPtr b _ => Some (N.eqb a b)
  | _, _ => Some false
  end.

Definition iface_eq : error -> error -> option bool := iface_eq_with value_eq.

(** ** errors.Is and errors.As *)

(** The loop of [errors.Is(err, target)] for a non-nil [target] [t], whose
    type is comparable when [cmp] holds:
<<
    for {
        if isComparable && err == target { return true }
        if x, ok := err.(interface{ Is(error) bool }); ok && x.Is(target) { return true }
        if err = Unwrap(err); err == nil { return false }
    }
>>
    Only [Checkpoint] and [*Checkpoint] have an [Is] method here, and
    [Checkpoint.Is(target)] is [errors.Is(e.err, target)]: the same loop
    from the field [err]. *)
Fixpoint is_loop (t : value) (cmp : bool) (e : value) {struct e} : option bool :=
  same <- (if cmp then value_eq e t else Some false) ;;
  if same then Some true else
  match e with
  | Foreign _ _ _ inner =>
      match inner with
      | None => Some false
      | Some e' => is_loop t cmp e'
      end
  | CheckpointVal c | CheckpointPtr _ c =>
      viaIs <- match err c with
               | None => Some false
               | Some a => is_loop t cmp a
               end ;;
      if viaIs then Some true else
      match prev c with
      | None => Some false
      | Some p => is_loop t cmp p
      end
  end.

(** [errors.Is(err, target)]. *)
Definition errors_Is (err target : error) : option bool :=
  match target with
  | None => iface_eq err None
  | Some t =>
      match err with
      | None => Some false
      | Some e => is_loop t (type_comparable t) e
      end
  end.

(** An interface type, as far as [errors.As] can observe it: which
    dynamic types implement it.  [Checkpoint] and [*Checkpoint] have the
    same method set ([Error], [Unwrap], [Is], [As], [File], [Line]: all
    with a value receiver), so they implement the same interfaces. *)
Record interface : Type := mkInterface {
  by_foreign : gotype -> bool;
  by_checkpoint : bool
}.

(** The type a target of [errors.As] points to: a foreign concrete type,
    [Checkpoint], [*Checkpoint], the interface [error] itself, or another
    interface type. *)
Inductive target_type : Type :=
| TForeign (ty : gotype)
| TCheckpoint
| TCheckpointPtr
| TError
| TInterface (i : interface).

(** [reflect.TypeOf(err).AssignableTo(targetType)]. *)
Definition assignable (v : value) (tt : target_type) : bool :=
  match tt, v with
  | TError, _ => true
  | TForeign ty, Foreign ty' _ _ _ => gotype_eqb ty' ty
  | TCheckpoint, CheckpointVal _ => true
  | TCheckpointPtr, CheckpointPtr _ _ => true
  | TInterface i, Foreign ty' _ _ _ => by_foreign i ty'
  | TInterface i, CheckpointVal _ => by_checkpoint i
  | TInterface i, CheckpointPtr _ _ => by_checkpoint i
  | _, _ => false
  end.

(** The loop of [errors.As(err, target)], for a well-formed target (a
    non-nil pointer to a [target_type]):
<<
    for err != nil {
        if reflectlite.TypeOf(err).AssignableTo(targetType) {
            val.Elem().Set(reflectlite.ValueOf(err)); return true }
        if x, ok := err.(interface{ As(interface{}) bool }); ok && x.As(target) { return true }
        err = Unwrap(err)
    }
    return false
>>
    The result is [Some v] when it returns true having stored [v] in the
    target, [None] when it returns false. *)
Fixpoint as_loop (tt : target_type) (e : value) {struct e} : option value :=
  if assignable e tt then Some e else
  match e with
  | Foreign _ _ _ inner =>
      match inner with
      | None => None
      | Some e' => as_loop tt e'
      end
  | CheckpointVal c | CheckpointPtr _ c =>
      match (match err c with None => None | Some a => as_loop tt a end) with
      | Some v => Some v
      | None =>
          match prev c with
          | None => None
          | Some p => as_loop tt p
          end
      end
  end.

Definition errors_As (err : error) (tt : target_type) : option value :=
  match err with
  | None => None
  | Some e => as_loop tt e
  end.

(** ** The methods of Checkpoint *)

(** The type assertion of [Error] on [e.prev], to a pointer to
    [Checkpoint], succeeds exactly on a dynamic value of type [*Checkpoint]. *)
Definition is_CheckpointPtr (v : value) : bool :=
  match v with
  | CheckpointPtr _ _ => true
  | _ => false
  end.

(** The [%v] verb of [fmt.Sprintf] on an [error] operand: "<nil>" for the
    nil interface, else what the operand's [Error()] returns. *)
Definition fmt_v (Error : value -> string) (e : error) : string :=
  match e with
  | None => "<nil>"
  | Some v => Error v
  end.

(** The body of [func (e Checkpoint) Error() string], given the method
    [Error] of the dynamic values in its fields. *)
Definition Error_with (Error : value -> string) (e : Checkpoint) : string :=
  let prevErrString :=
    match prev e with
    | None => ""
    | Some p =>
        let prevErrString := Error p in
        if is_CheckpointPtr p then prevErrString
        else "File: unknown" ++ nl ++ tab
             ++ strings_ReplaceAll prevErrString nl (nl ++ tab)
    end in
  if callerOk e
  then "File: " ++ file e ++ ":" ++ fmt_d (line e) ++ nl ++ tab
       ++ fmt_v Error (err e) ++ nl ++ prevErrString
  else "File: unknown" ++ nl ++ tab
       ++ fmt_v Error (err e) ++ nl ++ prevErrString.

(** [v.Error()] by dynamic dispatch: a [*Checkpoint] has the methods of
    [Checkpoint]. *)
Fixpoint value_Error (v : value) : string :=
  match v with
  | Foreign _ _ msg _ => msg
  | CheckpointVal c | CheckpointPtr _ c => Error_with value_Error c
  end.

Definition Error (e : Checkpoint) : string := Error_with value_Error e.

Definition Unwrap (e : Checkpoint) : error := prev e.

Definition Is (e : Checkpoint) (target : error) : option bool :=
  errors_Is (err e) target.

Definition As (e : Checkpoint) (target : target_type) : option value :=
  errors_As (err e) target.

Definition File (e : Checkpoint) : string := file e.

Definition Line (e : Checkpoint) : Z := line e.

(** ** Options and builders *)

(** [type Option = func(err error) error]: an alias. *)
Abbreviation Option := (option value -> option value).

(** A comparison that is known not to panic, as a boolean. *)
Definition is_true (r : option bool) : bool :=
  match r with
  | Some b => b
  | None => false
  end.

Definition IgnoreEOF : Option :=
  fun err =>
    if is_true (iface_eq err (Some io_EOF)) then Some io_EOF
    else if is_true (iface_eq err (Some io_ErrUnexpectedEOF))
    then Some io_ErrUnexpectedEOF
    else None.

(** The loop that opens both builders:
<<
    for _, o := range options {
        if newErr := o(err); newErr != nil { return newErr }
    }
>>
    [Some newErr] when it returns from the builder, [None] when it falls
    through. *)
Fixpoint apply_options (options : list Option) (err : error) : error :=
  match options with
  | [] => None
  | o :: rest =>
      match o err with
      | Some newErr => Some newErr
      | None => apply_options rest err
      end
  end.

(** What [runtime.Caller(1)] reports for the call site of a builder: the
    file path, the line, and whether the information could be recovered. *)
Record Frame : Type := mkFrame {
  frame_file : string;
  frame_line : Z;
  frame_ok : bool
}.

Definition From (caller : Frame) (err : error) (options : list Option) : error :=
  match apply_options options err with
  | Some newErr => Some newErr
  | None =>
      match err with
      | None => None
      | Some _ =>
          Some (CheckpointVal
                  {| err := err;
                     prev := None;
                     callerOk := frame_ok caller;
                     file := filepath_Base (frame_file caller);
                     line := frame_line caller |})
      end
  end.

Definition Wrap (caller : Frame) (prev err : error) (options : list Option)
  : error :=
  match apply_options options err with
  | Some newErr => Some newErr
  | None =>
      match prev with
      | None => None
      | Some _ =>
          Some (CheckpointVal
                  {| err := err;
                     prev := prev;
                     callerOk := frame_ok caller;
                     file := filepath_Base (frame_file caller);
                     line := frame_line caller |})
      end
  end.

(** ** The store of nodes *)

(** The nodes built so far, oldest first.  The builders are the only code
    that constructs a [Checkpoint]: a call that does so adds one node. *)
Definition store : Type := list Checkpoint.

Definition From_st (caller : Frame) (err : error) (options : list Option)
  (s : store) : error * store :=
  match apply_options options err with
  | Some newErr => (Some newErr, s)
  | None =>
      match err with
      | None => (None, s)
      | Some _ =>
          let node := {| err := err;
                         prev := None;
                         callerOk := frame_ok caller;
                         file := filepath_Base (frame_file caller);
                         line := frame_line caller |} in
          (Some (CheckpointVal node), (s ++ [node])%list)
      end
  end.

Definition Wrap_st (caller : Frame) (prev err : error) (options : list Option)
  (s : store) : error * store :=
  match apply_options options err with
  | Some newErr => (Some newErr, s)
  | None =>
      match prev with
      | None => (None, s)
      | Some _ =>
          let node := {| err := err;
                         prev := prev;
                         callerOk := frame_ok caller;
                         file := filepath_Base (frame_file caller);
                         line := frame_line caller |} in
          (Some (CheckpointVal node), (s ++ [node])%list)
      end
  end.

(** ** Values that can be compared *)

(** A content that [==] can compare with itself: no NaN, and every
    interface field in it is nil or holds a value of a comparable type
    whose content is sound in turn. *)
Fixpoint sound (k : content) : bool :=
  match k with
  | Word _ => true
  | NaN => false
  | NilIface => true
  | Iface ty c => ty_comparable ty && sound c
  | Struct fields => forallb sound fields
  end.

(** The types in [v] are comparable: the dynamic type of [v] and, when
    [v] is a [Checkpoint] struct, those of the values in its two [error]
    fields.  (A pointer is compared by address, whatever it points to.) *)
Fixpoint comparable (v : value) : bool :=
  let field (e : error) : bool :=
    match e with
    | None => true
    | Some w => comparable w
    end in
  match v with
  | Foreign ty _ _ _ => ty_comparable ty
  | CheckpointVal c => field (err c) && field (prev c)
  | CheckpointPtr _ _ => true
  end.

(** [v == v] is true: the dynamic type of [v] is comparable and its content
    sound and, when [v] is a [Checkpoint] struct, so are the values in its
    two [error] fields. *)
Fixpoint self_comparable (v : value) : bool :=
  let field (e : error) : bool :=
    match e with
    | None => true
    | Some w => self_comparable w
    end in
  match v with
  | Foreign ty key _ _ => ty_comparable ty && sound key
  | CheckpointVal c => field (err c) && field (prev c)
  | CheckpointPtr _ _ => true
  end.

Definition self_comparable_error (e : error) : bool :=
  match e with
  | None => true
  | Some v => self_comparable v
  end.

(** No comparison [y == t] panics, whatever [y] is. *)
Definition never_panics (t : value) : Prop :=
  forall y, exists b, value_eq y t = Some b.

(** A foreign error type that is not comparable, such as a slice type with
    an [Error] method ([type MultiError []error]). *)
Definition MultiError : gotype := mkType "MultiError" false.

(** The loop of [errors.Is] from an interface value: nil ends it. *)
Definition is_next (t : value) (cmp : bool) (e : error) : option bool :=
  match e with
  | None => Some false
  | Some v => is_loop t cmp v
  end.

(** No option of the list overrides [err]. *)
Definition none_overrides (options : list Option) (err : error) : Prop :=
  Forall (fun o => o err = None) options.


(** ** Scenarios *)

Module Scenario.
(** [e1 = errors.New("A")], [e2 = errors.New("B")]. *)
Definition e1 : value := errors_New 100 "A".
Definition e2 : value := errors_New 101 "B".

(** Call sites in a file x.go, lines 10 and 11. *)
Definition line10 : Frame := mkFrame "/home/dev/project/x.go" 10 true.
Definition line11 : Frame := mkFrame "/home/dev/project/x.go" 11 true.

(** [n = From(e1)] at line 10, [n2 = Wrap(n, e2)] at line 11. *)
Definition n : error := From line10 (Some e1) [].
Definition n2 : error := Wrap line11 n (Some e2) [].

(** The node of [n], and the same chain with the cause passed as a
    pointer to it. *)
Definition node : Checkpoint :=
  mkCheckpoint (Some e1) None true "x.go" 10.
Definition n2_ptr : error :=
  Wrap line11 (Some (CheckpointPtr 200 node)) (Some e2) [].

(** The node of [n2]: a two-level chain. *)
Definition n2_node : Checkpoint :=
  mkCheckpoint (Some e2) (Some (CheckpointVal node)) true "x.go" 11.

(** An error of a type that is not comparable. *)
Definition several : value :=
  Foreign MultiError (Word 0) "several errors" None.

(** An error of a comparable struct type ([type holder struct { cause
    error }]) that holds an error of a non-comparable type, and an error of
    a comparable type that holds a NaN ([type reading float64]). *)
Definition holder : value :=
  Foreign (mkType "holder" true) (Struct [Iface MultiError (Word 0)])
    "held" (Some several).
Definition reading : value :=
  Foreign (mkType "reading" true) NaN "NaN" None.

(** An option that replaces every error by one of its own. *)
Definition busy : value := errors_New 102 "busy".
Definition always_busy : Option := fun _ => Some busy.

(** An option that lets every error through. *)
Definition pass : Option := fun _ => None.
End Scenario.

(** ** Chains *)

(** A chain grown from [base] by one call of [Wrap] per step, the oldest
    step first; a step is the call site and the error attached there. *)
Fixpoint wraps (base : error) (steps : list (Frame * error)) : error :=
  match steps with
  | [] => base
  | (caller, e) :: rest => wraps (Wrap caller base e []) rest
  end.

(** [errors.Unwrap(err)]: what the [Unwrap] method of [err] returns, nil
    when [err] is nil or has no such method. *)
Definition errors_Unwrap (e : error) : error :=
  match e with
  | None => None
  | Some (Foreign _ _ _ inner) => inner
  | Some (CheckpointVal c) | Some (CheckpointPtr _ c) => Unwrap c
  end.

(** Going through the steps of a chain from the oldest: what [errors.As]
    finds in the error attached at a step replaces what was found in the
    older part of the chain. *)
Definition newest_match (tt : target_type) (found : option value)
  (step : Frame * error) : option value :=
  match errors_As (snd step) tt with
  | Some v => Some v
  | None => found
  end.

(** No [*Checkpoint] anywhere in a value. *)
Fixpoint pointer_free (v : value) : bool :=
  let field (e : error) : bool :=
    match e with
    | None => true
    | Some w => pointer_free w
    end in
  match v with
  | Foreign _ _ _ inner => field inner
  | CheckpointVal c => field (err c) && field (prev c)
  | CheckpointPtr _ _ => false
  end.

Definition pointer_free_error (e : error) : bool :=
  match e with
  | None => true
  | Some v => pointer_free v
  end.

(** What [runtime.Caller] reports when it cannot recover the caller: the
    zero values. *)
Definition no_caller : Frame := mkFrame "" 0 false.

(** No byte of the string is a path separator. *)
Definition no_separator (s : string) : Prop :=
  Forall (fun c => IsPathSeparator c = false) (bytes_of s).

(** The string has no newline. *)
Fixpoint single_line (s : string) : bool :=
  match s with
  | EmptyString => true
  | String c s' => negb (Ascii.eqb c "010"%char) && single_line s'
  end.

(** Every newline of the string is followed by a tab. *)
Fixpoint tab_after_newlines (s : string) : bool :=
  match s with
  | EmptyString => true
  | String c s' =>
      (if Ascii.eqb c "010"%char then strings_HasPrefix s' tab else true)
      && tab_after_newlines s'
  end.

(** ** Induction on contents and on error values *)

Section content_induction.
Variable P : content -> Prop.
Hypothesis P_Word : forall n, P (Word n).
Hypothesis P_NaN : P NaN.
Hypothesis P_NilIface : P NilIface.
Hypothesis P_Iface : forall ty c, P c -> P (Iface ty c).
Hypothesis P_Struct : forall fields, Forall P fields -> P (Struct fields).

Fixpoint content_induction (k : content) : P k :=
  match k with
  | Word n => P_Word n
  | NaN => P_NaN
  | NilIface => P_NilIface
  | Iface ty c => P_Iface ty c (content_induction c)
  | Struct fields =>
      P_Struct fields
        ((fix all (l : list content) : Forall P l :=
            match l with
            | [] => Forall_nil P
            | x :: l' => Forall_cons x (content_induction x) (all l')
            end) fields)
  end.
End content_induction.


Section value_induction.
Variable P : value -> Prop.

(** [P] on the value of an interface, if there is one. *)
Definition on_error (e : error) : Prop :=
  match e with
  | None => True
  | Some v => P v
  end.

Hypothesis P_Foreign : forall ty key msg inner,
  on_error inner -> P (Foreign ty key msg inner).
Hypothesis P_CheckpointVal : forall c,
  on_error (err c) -> on_error (prev c) -> P (CheckpointVal c).
Hypothesis P_CheckpointPtr : forall a c,
  on_error (err c) -> on_error (prev c) -> P (CheckpointPtr a c).

Fixpoint value_induction (v : value) : P v :=
  let on_field (e : error) : on_error e :=
    match e with
    | None => I
    | Some w => value_induction w
    end in
  match v with
  | Foreign ty key msg inner => P_Foreign ty key msg inner (on_field inner)
  | CheckpointVal c =>
      P_CheckpointVal c (on_field (err c)) (on_field (prev c))
  | CheckpointPtr a c =>
      P_CheckpointPtr a c (on_field (err c)) (on_field (prev c))
  end.
End value_induction.

(** ** Facts about the library functions *)

Lemma gotype_eqb_refl (t : gotype) : gotype_eqb t t = true.
Proof.
  unfold gotype_eqb.
  now rewrite String.eqb_refl, Bool.eqb_reflx.
Qed.

Lemma gotype_eqb_comparable (a b : gotype) :
  gotype_eqb a b = true -> ty_comparable a = ty_comparable b.
Proof.
  unfold gotype_eqb; intros H.
  apply andb_true_iff in H as [_ H].
  now apply Bool.eqb_prop.
Qed.

Lemma content_eq_Struct (fx fy : list content) :
  content_eq (Struct fx) (Struct fy) = fields_eq fx fy.
Proof.
  reflexivity.
Qed.

(** A content that is equal to some content can be compared with every
    content: the comparison that succeeded has visited all of it. *)
Lemma content_eq_true_total (x : content) :
  forall t, content_eq x t = Some true ->
  forall y, exists b, content_eq y t = Some b.
Proof.
  induction x as [n | | | tx cx IH | fx IH] using content_induction;
    intros t H; destruct t as [m | | | ty cy | fy]; try discriminate H;
    intros y.
  - destruct y; simpl; eexists; reflexivity.
  - destruct y; simpl; eexists; reflexivity.
  - simpl in H.
    destruct (gotype_eqb tx ty) eqn:E; [ | discriminate H ].
    destruct (ty_comparable tx) eqn:C; [ | discriminate H ].
    destruct y as [ | | | tz cz | ]; simpl; try (eexists; reflexivity).
    destruct (gotype_eqb tz ty) eqn:E'; [ | eexists; reflexivity ].
    rewrite (gotype_eqb_comparable _ _ E'), <- (gotype_eqb_comparable _ _ E), C.
    exact (IH cy H cz).
  - rewrite content_eq_Struct in H.
    destruct y as [ | | | | fz]; try (simpl; eexists; reflexivity).
    rewrite content_eq_Struct.
    revert fy H fz.
    induction IH as [ | a fx Ha _ IHl]; intros [ | b fy] H fz;
      try discriminate H.
    + destruct fz; simpl; eexists; reflexivity.
    + simpl in H.
      destruct (content_eq a b) as [[ | ] | ] eqn:E; try discriminate H.
      simpl in H.
      destruct fz as [ | z fz]; [ simpl; eexists; reflexivity | ].
      simpl. destruct (Ha b E z) as [r ->]; simpl.
      destruct r; [ exact (IHl fy H fz) | eexists; reflexivity ].
Qed.

(** A sound content is equal to itself. *)
Lemma content_eq_refl (k : content) :
  sound k = true -> content_eq k k = Some true.
Proof.
  induction k as [n | | | ty c IH | fields IH] using content_induction;
    intros H; try discriminate H.
  - simpl. now rewrite N.eqb_refl.
  - reflexivity.
  - simpl in H |- *. apply andb_true_iff in H as [Hty Hc].
    now rewrite gotype_eqb_refl, Hty, IH.
  - rewrite content_eq_Struct. simpl in H.
    induction IH as [ | a l Ha _ IHl]; [ reflexivity | ].
    simpl in H |- *. apply andb_true_iff in H as [Hs Hl].
    rewrite (Ha Hs). simpl. now apply IHl.
Qed.

Lemma self_comparable_CheckpointVal (c : Checkpoint) :
  self_comparable (CheckpointVal c)
  = self_comparable_error (err c) && self_comparable_error (prev c).
Proof. reflexivity. Qed.

(** The comparison of two [Checkpoint] structs, field by field. *)
Lemma value_eq_CheckpointVal (c d : Checkpoint) :
  value_eq (CheckpointVal c) (CheckpointVal d)
  = (e <- iface_eq (err c) (err d) ;;
     if negb e then Some false else
     p <- iface_eq (prev c) (prev d) ;;
     if negb p then Some false else
     Some (Bool.eqb (callerOk c) (callerOk d)
           && String.eqb (file c) (file d)
           && Z.eqb (line c) (line d))).
Proof. reflexivity. Qed.

(** A value that is [==] to some value can be compared with every value
    without a panic. *)
Lemma value_eq_true_total (x : value) :
  forall t, value_eq x t = Some true ->
  forall y, exists b, value_eq y t = Some b.
Proof.
  induction x as [tx kx mx ix _ | c IHe IHp | a c _ _] using value_induction;
    intros t H; destruct t as [ty ky my iy | d | b d]; try discriminate H;
    intros y.
  - simpl in H.
    destruct (gotype_eqb tx ty) eqn:E; [ | discriminate H ].
    destruct (ty_comparable tx) eqn:C; [ | discriminate H ].
    destruct y as [tz kz mz iz | | ]; simpl; try (eexists; reflexivity).
    destruct (gotype_eqb tz ty) eqn:E'; [ | eexists; reflexivity ].
    rewrite (gotype_eqb_comparable _ _ E'), <- (gotype_eqb_comparable _ _ E), C.
    exact (content_eq_true_total kx ky H kz).
  - rewrite value_eq_CheckpointVal in H.
    destruct (iface_eq (err c) (err d)) as [[ | ] | ] eqn:Ee;
      try discriminate H.
    simpl in H.
    destruct (iface_eq (prev c) (prev d)) as [[ | ] | ] eqn:Ep;
      try discriminate H.
    destruct y as [ | c' | ]; try (simpl; eexists; reflexivity).
    rewrite value_eq_CheckpointVal.
    assert (Te : exists b, iface_eq (err c') (err d) = Some b).
    { revert IHe Ee. unfold iface_eq, iface_eq_with.
      destruct (err c) as [x | ], (err d) as [z | ], (err c') as [w | ];
        intros IHe Ee; try discriminate Ee; try (eexists; reflexivity).
      exact (IHe z Ee w). }
    assert (Tp : exists b, iface_eq (prev c') (prev d) = Some b).
    { revert IHp Ep. unfold iface_eq, iface_eq_with.
      destruct (prev c) as [x | ], (prev d) as [z | ], (prev c') as [w | ];
        intros IHp Ep; try discriminate Ep; try (eexists; reflexivity).
      exact (IHp z Ep w). }
    destruct Te as [be ->], Tp as [bp ->]; simpl.
    destruct be; simpl; [ | eexists; reflexivity ].
    destruct bp; simpl; eexists; reflexivity.
  - destruct y; simpl; eexists; reflexivity.
Qed.

(** A value whose types are comparable and whose contents are sound is
    equal to itself. *)
Lemma value_eq_refl (v : value) :
  self_comparable v = true -> value_eq v v = Some true.
Proof.
  induction v as [ty k m i _ | c IHe IHp | a c _ _] using value_induction;
    intros Hv.
  - simpl in Hv |- *. apply andb_true_iff in Hv as [Hty Hk].
    now rewrite gotype_eqb_refl, Hty, content_eq_refl.
  - rewrite self_comparable_CheckpointVal in Hv.
    apply andb_true_iff in Hv as [He Hp].
    rewrite value_eq_CheckpointVal.
    assert (Ee : iface_eq (err c) (err c) = Some true).
    { revert IHe He. destruct (err c); simpl; auto. }
    assert (Ep : iface_eq (prev c) (prev c) = Some true).
    { revert IHp Hp. destruct (prev c); simpl; auto. }
    rewrite Ee, Ep; simpl.
    now rewrite Bool.eqb_reflx, String.eqb_refl, Z.eqb_refl.
  - simpl. now rewrite N.eqb_refl.
Qed.

(** A value that is equal to itself has a comparable type, and no
    comparison with it panics. *)
Lemma self_equal_type (t : value) :
  value_eq t t = Some true -> type_comparable t = true.
Proof.
  destruct t as [ty k m i | c | a c]; simpl; try reflexivity.
  rewrite gotype_eqb_refl. now destruct (ty_comparable ty).
Qed.

Lemma self_equal_never_panics (t : value) :
  value_eq t t = Some true -> never_panics t.
Proof. intros H y. exact (value_eq_true_total t t H y). Qed.

(** One turn of the loop of [errors.Is] at a [Checkpoint]: the comparison,
    then the node's own method [Is], then the node's [Unwrap]. *)
Lemma errors_Is_Checkpoint (c : Checkpoint) (t : value) :
  errors_Is (Some (CheckpointVal c)) (Some t)
  = (same <- (if type_comparable t then value_eq (CheckpointVal c) t
              else Some false) ;;
     if same then Some true else
     viaIs <- Is c (Some t) ;;
     if viaIs then Some true else errors_Is (Unwrap c) (Some t)).
Proof.
  unfold Is, Unwrap, errors_Is; simpl.
  destruct (type_comparable t); simpl;
    destruct (err c), (prev c); reflexivity.
Qed.

Lemma is_loop_Foreign t cmp ty k m i :
  is_loop t cmp (Foreign ty k m i)
  = (same <- (if cmp then value_eq (Foreign ty k m i) t else Some false) ;;
     if same then Some true else is_next t cmp i).
Proof. reflexivity. Qed.

Lemma is_loop_CheckpointVal t cmp c :
  is_loop t cmp (CheckpointVal c)
  = (same <- (if cmp then value_eq (CheckpointVal c) t else Some false) ;;
     if same then Some true else
     viaIs <- is_next t cmp (err c) ;;
     if viaIs then Some true else is_next t cmp (prev c)).
Proof. reflexivity. Qed.

Lemma is_loop_CheckpointPtr t cmp a c :
  is_loop t cmp (CheckpointPtr a c)
  = (same <- (if cmp then value_eq (CheckpointPtr a c) t else Some false) ;;
     if same then Some true else
     viaIs <- is_next t cmp (err c) ;;
     if viaIs then Some true else is_next t cmp (prev c)).
Proof. reflexivity. Qed.

Lemma compare_total (t : value) (cmp : bool) (e : value) :
  never_panics t ->
  exists b, (if cmp then value_eq e t else Some false) = Some b.
Proof.
  intros Ht. destruct cmp; [ apply Ht | now exists false ].
Qed.

(** When no comparison with the target panics, the loop of [errors.Is]
    does not panic. *)
Lemma is_loop_total (t : value) (cmp : bool) :
  never_panics t -> forall e, exists b, is_loop t cmp e = Some b.
Proof.
  intros Ht e.
  assert (next : forall x, on_error (fun v => exists b, is_loop t cmp v = Some b) x ->
                           exists b, is_next t cmp x = Some b).
  { intros [v | ] H; simpl; [ exact H | now exists false ]. }
  induction e as [ty k m i IH | c IHe IHp | a c IHe IHp] using value_induction.
  - rewrite is_loop_Foreign.
    destruct (compare_total t cmp (Foreign ty k m i) Ht) as [b ->]; simpl.
    destruct b; [ now exists true | now apply next ].
  - rewrite is_loop_CheckpointVal.
    destruct (compare_total t cmp (CheckpointVal c) Ht) as [b ->]; simpl.
    destruct b; [ now exists true | ].
    destruct (next _ IHe) as [b ->]; simpl.
    destruct b; [ now exists true | now apply next ].
  - rewrite is_loop_CheckpointPtr.
    destruct (compare_total t cmp (CheckpointPtr a c) Ht) as [b ->]; simpl.
    destruct b; [ now exists true | ].
    destruct (next _ IHe) as [b ->]; simpl.
    destruct b; [ now exists true | now apply next ].
Qed.

Lemma errors_Is_total (e : error) (t : value) :
  never_panics t -> exists b, errors_Is e (Some t) = Some b.
Proof.
  intros Ht. destruct e as [v | ]; simpl.
  - now apply is_loop_total.
  - eexists; reflexivity.
Qed.

(** When the loop of [errors.Is] returns true, one of its comparisons
    with the target did. *)
Lemma is_loop_found (t : value) (cmp : bool) (e : value) :
  is_loop t cmp e = Some true -> exists x, value_eq x t = Some true.
Proof.
  assert (next : forall x,
             on_error (fun v => is_loop t cmp v = Some true ->
                                exists x, value_eq x t = Some true) x ->
             is_next t cmp x = Some true ->
             exists x, value_eq x t = Some true).
  { intros [v | ] IH H; simpl in H; [ now apply IH | discriminate H ]. }
  assert (same : forall v r,
             (if cmp then value_eq v t else Some false) = Some r ->
             r = true -> exists x, value_eq x t = Some true).
  { intros v r E ->. destruct cmp; [ now exists v | discriminate E ]. }
  induction e as [ty k m i IH | c IHe IHp | a c IHe IHp] using value_induction;
    intros H.
  - rewrite is_loop_Foreign in H.
    destruct (if cmp then value_eq (Foreign ty k m i) t else Some false)
      as [[ | ] | ] eqn:E; simpl in H; try discriminate H.
    + now apply (same _ _ E).
    + now apply (next i).
  - rewrite is_loop_CheckpointVal in H.
    destruct (if cmp then value_eq (CheckpointVal c) t else Some false)
      as [[ | ] | ] eqn:E; simpl in H; try discriminate H.
    + now apply (same _ _ E).
    + destruct (is_next t cmp (err c)) as [[ | ] | ] eqn:N; simpl in H;
        try discriminate H.
      * now apply (next (err c)).
      * now apply (next (prev c)).
  - rewrite is_loop_CheckpointPtr in H.
    destruct (if cmp then value_eq (CheckpointPtr a c) t else Some false)
      as [[ | ] | ] eqn:E; simpl in H; try discriminate H.
    + now apply (same _ _ E).
    + destruct (is_next t cmp (err c)) as [[ | ] | ] eqn:N; simpl in H;
        try discriminate H.
      * now apply (next (err c)).
      * now apply (next (prev c)).
Qed.

(** A target that [errors.Is] has found somewhere is equal to a value, so
    no comparison with it panics. *)
Lemma errors_Is_found_never_panics (e : error) (t : value) :
  errors_Is e (Some t) = Some true -> never_panics t.
Proof.
  destruct e as [v | ]; simpl; [ | discriminate ].
  intros H. destruct (is_loop_found _ _ _ H) as [x Hx].
  intros y. exact (value_eq_true_total x t Hx y).
Qed.

(** [errors.Is(v, v)] for a [v] that is equal to itself. *)
Lemma errors_Is_refl (v : value) :
  value_eq v v = Some true -> errors_Is (Some v) (Some v) = Some true.
Proof.
  intros Hv. unfold errors_Is.
  rewrite (self_equal_type v Hv).
  destruct v;
    rewrite ?is_loop_Foreign, ?is_loop_CheckpointVal, ?is_loop_CheckpointPtr;
    rewrite Hv; reflexivity.
Qed.

(** [errors.Is] finds a target that the node's method [Is] accepts, and
    one that it finds behind the node's [Unwrap]. *)
Lemma errors_Is_via_Is (c : Checkpoint) (t : value) :
  never_panics t -> Is c (Some t) = Some true ->
  errors_Is (Some (CheckpointVal c)) (Some t) = Some true.
Proof.
  intros Ht H. rewrite errors_Is_Checkpoint, H.
  destruct (compare_total t (type_comparable t) (CheckpointVal c) Ht) as [b ->].
  destruct b; reflexivity.
Qed.

Lemma errors_Is_via_Unwrap (c : Checkpoint) (t : value) :
  never_panics t -> errors_Is (Unwrap c) (Some t) = Some true ->
  errors_Is (Some (CheckpointVal c)) (Some t) = Some true.
Proof.
  intros Ht H. rewrite errors_Is_Checkpoint, H.
  destruct (errors_Is_total (err c) t Ht) as [bi Hi].
  unfold Is; rewrite Hi.
  destruct (compare_total t (type_comparable t) (CheckpointVal c) Ht) as [b ->].
  destruct b, bi; reflexivity.
Qed.

(** ** Facts about the builders *)

Lemma apply_options_none (options : list Option) (err : error) :
  none_overrides options err -> apply_options options err = None.
Proof.
  induction 1 as [ | o rest Ho _ IH]; simpl; [ reflexivity | ].
  now rewrite Ho.
Qed.

Lemma apply_options_first (pre post : list Option) (o : Option)
  (err : error) (v : value) :
  none_overrides pre err -> o err = Some v ->
  apply_options (pre ++ o :: post) err = Some v.
Proof.
  induction 1 as [ | p pre Hp _ IH]; simpl; intros Ho.
  - now rewrite Ho.
  - rewrite Hp. now apply IH.
Qed.

Lemma From_st_From caller err options s :
  fst (From_st caller err options s) = From caller err options.
Proof.
  unfold From_st, From.
  destruct (apply_options options err); [ reflexivity | ].
  destruct err; reflexivity.
Qed.

Lemma Wrap_st_Wrap caller prev err options s :
  fst (Wrap_st caller prev err options s) = Wrap caller prev err options.
Proof.
  unfold Wrap_st, Wrap.
  destruct (apply_options options err); [ reflexivity | ].
  destruct prev; reflexivity.
Qed.

(** The comparisons of [IgnoreEOF] are against pointers: no panic. *)
Lemma IgnoreEOF_compares (err : error) (a : N) (msg : string) :
  exists b, iface_eq err (Some (errors_New a msg)) = Some b.
Proof.
  destruct err as [v | ]; [ | now exists false ].
  apply (value_eq_true_total (errors_New a msg)).
  simpl. now rewrite N.eqb_refl.
Qed.

Lemma IgnoreEOF_EOF : IgnoreEOF (Some io_EOF) = Some io_EOF.
Proof. reflexivity. Qed.

Lemma IgnoreEOF_ErrUnexpectedEOF :
  IgnoreEOF (Some io_ErrUnexpectedEOF) = Some io_ErrUnexpectedEOF.
Proof. reflexivity. Qed.

(** ** The claims *)

(** C1 (what the code does).  [n = From(e1)] at x.go:10 renders as
    "File: x.go:10\n\tA\n".  [n2 = Wrap(n, e2)] at x.go:11 does not insert
    that rendering verbatim: the cause is a [Checkpoint] value, not a
    [*Checkpoint], so the type assertion of [Error] fails and the cause is
    rendered as a foreign error, behind "File: unknown\n\t" and with a tab
    after each of its newlines.  The rendering of [n2] does not start with
    "File: x.go:11\n\tB\nFile: x.go:10\n\tA\n". *)
Theorem C1_two_level_render :
  Scenario.n = Some (CheckpointVal Scenario.node)
  /\ Error Scenario.node = "File: x.go:10" ++ nl ++ tab ++ "A" ++ nl
  /\ Scenario.n2 = Some (CheckpointVal Scenario.n2_node)
  /\ Error Scenario.n2_node
     = "File: x.go:11" ++ nl ++ tab ++ "B" ++ nl
       ++ "File: unknown" ++ nl ++ tab
       ++ "File: x.go:10" ++ nl ++ tab ++ tab ++ "A" ++ nl ++ tab
  /\ strings_HasPrefix (Error Scenario.n2_node)
       ("File: x.go:11" ++ nl ++ tab ++ "B" ++ nl
        ++ "File: x.go:10" ++ nl ++ tab ++ "A" ++ nl) = false.
Proof. repeat split; vm_compute; reflexivity. Qed.

(** What [Error] does with a cause that is a [Checkpoint] value, as the
    builders return it: the foreign formatting. *)
Lemma Error_value_cause (e c : Checkpoint) :
  prev e = Some (CheckpointVal c) -> callerOk e = true ->
  Error e = "File: " ++ file e ++ ":" ++ fmt_d (line e) ++ nl ++ tab
            ++ fmt_v value_Error (err e) ++ nl
            ++ "File: unknown" ++ nl ++ tab
            ++ strings_ReplaceAll (Error c) nl (nl ++ tab).
Proof.
  intros Hp Hok. unfold Error at 1, Error_with. rewrite Hp, Hok. reflexivity.
Qed.

(** A cause of type [*Checkpoint] takes the other branch: its rendering is
    inserted as it is. *)
Lemma Error_pointer_cause (e : Checkpoint) (a : N) (c : Checkpoint) :
  prev e = Some (CheckpointPtr a c) -> callerOk e = true ->
  Error e = "File: " ++ file e ++ ":" ++ fmt_d (line e) ++ nl ++ tab
            ++ fmt_v value_Error (err e) ++ nl ++ Error c.
Proof.
  intros Hp Hok. unfold Error at 1, Error_with. rewrite Hp, Hok. reflexivity.
Qed.

Example Error_pointer_cause_x_go :
  fmt_v value_Error Scenario.n2_ptr
  = "File: x.go:11" ++ nl ++ tab ++ "B" ++ nl
    ++ "File: x.go:10" ++ nl ++ tab ++ "A" ++ nl.
Proof. vm_compute; reflexivity. Qed.

(** C2.  In [From] and in [Wrap] the options are applied to [err], in the
    order given.  The first one that returns a non-nil error decides the
    result of the builder, whatever [prev] is, and no node is built.  When
    every option returns nil the normal construction proceeds: [From]
    returns nil for a nil [err] and else a new node with [err] as its
    annotation, no cause and the caller's location; [Wrap] returns nil for
    a nil [prev] and else a new node with [err] as its annotation, [prev]
    as its cause and the caller's location; the node built is the one
    node added. *)
Theorem C2_first_override_wins
  (caller : Frame) (prev err : error) (s : store) :
  (forall pre o post v,
      none_overrides pre err -> o err = Some v ->
      From caller err (pre ++ o :: post) = Some v
      /\ Wrap caller prev err (pre ++ o :: post) = Some v
      /\ snd (From_st caller err (pre ++ o :: post) s) = s
      /\ snd (Wrap_st caller prev err (pre ++ o :: post) s) = s)
  /\ (forall options,
         none_overrides options err ->
         From_st caller err options s
         = match err with
           | None => (None, s)
           | Some _ =>
               let node := mkCheckpoint err None (frame_ok caller)
                             (filepath_Base (frame_file caller))
                             (frame_line caller) in
               (Some (CheckpointVal node), (s ++ [node])%list)
           end
         /\ Wrap_st caller prev err options s
            = match prev with
              | None => (None, s)
              | Some _ =>
                  let node := mkCheckpoint err prev (frame_ok caller)
                                (filepath_Base (frame_file caller))
                                (frame_line caller) in
                  (Some (CheckpointVal node), (s ++ [node])%list)
              end
         /\ From caller err options = fst (From_st caller err options s)
         /\ Wrap caller prev err options
            = fst (Wrap_st caller prev err options s)).
Proof.
  split.
  - intros pre o post v Hpre Ho.
    pose proof (apply_options_first pre post o err v Hpre Ho) as E.
    unfold From, Wrap, From_st, Wrap_st. rewrite E. repeat split.
  - intros options H.
    rewrite From_st_From, Wrap_st_Wrap.
    unfold From_st, Wrap_st. rewrite (apply_options_none options err H).
    repeat split.
Qed.

Lemma C2_witness :
  From Scenario.line10 (Some io_EOF)
    ([Scenario.pass] ++ IgnoreEOF :: [Scenario.always_busy]) = Some io_EOF
  /\ Wrap Scenario.line10 (Some Scenario.e1) (Some io_EOF)
       ([Scenario.pass] ++ IgnoreEOF :: [Scenario.always_busy]) = Some io_EOF
  /\ Wrap_st Scenario.line11 (Some (CheckpointVal Scenario.node))
       (Some Scenario.e2) [Scenario.pass; IgnoreEOF] []
     = (Some (CheckpointVal Scenario.n2_node), [Scenario.n2_node]).
Proof.
  destruct (C2_first_override_wins Scenario.line10 (Some Scenario.e1)
              (Some io_EOF) []) as [first _].
  destruct (C2_first_override_wins Scenario.line11
              (Some (CheckpointVal Scenario.node))
              (Some Scenario.e2) []) as [_ none].
  destruct (first [Scenario.pass] IgnoreEOF [Scenario.always_busy] io_EOF)
    as (F & W & _).
  - repeat constructor.
  - reflexivity.
  - destruct (none [Scenario.pass; IgnoreEOF]) as (_ & W' & _).
    + repeat constructor.
    + split; [ exact F | split; [ exact W | exact W' ] ].
Defined.

(** C3.  Without an overriding option, [From(nil)] is nil and
    [Wrap(nil, err)] is nil for every [err], and neither builds a node. *)
Theorem C3_absent_in_absent_out
  (caller : Frame) (err : error) (options : list Option) (s : store) :
  (none_overrides options None ->
     From caller None options = None
     /\ From_st caller None options s = (None, s))
  /\ (none_overrides options err ->
        Wrap caller None err options = None
        /\ Wrap_st caller None err options s = (None, s)).
Proof.
  split; intros H; unfold From, From_st, Wrap, Wrap_st;
    rewrite (apply_options_none _ _ H); split; reflexivity.
Qed.

Lemma C3_witness :
  From Scenario.line10 None [Scenario.pass; IgnoreEOF] = None
  /\ Wrap Scenario.line10 None (Some Scenario.e1) [Scenario.pass; IgnoreEOF]
     = None.
Proof.
  destruct (C3_absent_in_absent_out Scenario.line10 None
              [Scenario.pass; IgnoreEOF] []) as [F _].
  destruct (C3_absent_in_absent_out Scenario.line10 (Some Scenario.e1)
              [Scenario.pass; IgnoreEOF] []) as [_ W].
  split.
  - apply F. repeat constructor.
  - apply W. repeat constructor.
Defined.

(** C4.  For a non-nil [cause] and no overriding option, [Wrap(cause, nil)]
    is a node: its annotation is nil and its [Unwrap()] is [cause]. *)
Theorem C4_wrap_nil_annotation
  (caller : Frame) (cause : value) (options : list Option) :
  none_overrides options None ->
  exists node,
    Wrap caller (Some cause) None options = Some (CheckpointVal node)
    /\ err node = None
    /\ Unwrap node = Some cause.
Proof.
  intros H. unfold Wrap. rewrite (apply_options_none _ _ H).
  eexists; repeat split.
Qed.

Lemma C4_witness :
  exists node,
    Wrap Scenario.line11 (Some Scenario.e1) None [IgnoreEOF]
    = Some (CheckpointVal node)
    /\ err node = None
    /\ Unwrap node = Some Scenario.e1.
Proof.
  apply (C4_wrap_nil_annotation Scenario.line11 Scenario.e1 [IgnoreEOF]).
  repeat constructor.
Defined.

(** C5 fails as stated: an option placed before [IgnoreEOF] may override
    the sentinel first, and then [From] returns that option's error. *)
Lemma C5_counterexample :
  In IgnoreEOF [Scenario.always_busy; IgnoreEOF]
  /\ From Scenario.line10 (Some io_EOF) [Scenario.always_busy; IgnoreEOF]
     = Some Scenario.busy
  /\ From Scenario.line10 (Some io_EOF) [Scenario.always_busy; IgnoreEOF]
     <> Some io_EOF.
Proof.
  split; [ right; left; reflexivity | ].
  split; [ reflexivity | discriminate ].
Qed.

(** C5 (amended).  When [IgnoreEOF] is among the options and no option
    before it overrides the sentinel, [From] applied to [io.EOF] or to
    [io.ErrUnexpectedEOF] returns that sentinel itself, not a node. *)
Theorem C5_IgnoreEOF_returns_sentinel
  (caller : Frame) (pre post : list Option) (sentinel : value) :
  sentinel = io_EOF \/ sentinel = io_ErrUnexpectedEOF ->
  none_overrides pre (Some sentinel) ->
  From caller (Some sentinel) (pre ++ IgnoreEOF :: post) = Some sentinel.
Proof.
  intros Hs Hpre. unfold From.
  rewrite (apply_options_first pre post IgnoreEOF (Some sentinel) sentinel);
    [ reflexivity | exact Hpre | ].
  destruct Hs as [-> | ->]; reflexivity.
Qed.

Lemma C5_witness :
  From Scenario.line10 (Some io_ErrUnexpectedEOF)
    ([Scenario.pass] ++ IgnoreEOF :: [Scenario.always_busy])
  = Some io_ErrUnexpectedEOF.
Proof.
  apply (C5_IgnoreEOF_returns_sentinel Scenario.line10 [Scenario.pass]
           [Scenario.always_busy] io_ErrUnexpectedEOF).
  - right; reflexivity.
  - repeat constructor.
Defined.

(** C6.  [Is] and [As] of a node look at its annotation only.  For a node
    built by [Wrap(cause, e)]: [Is(target)] is [errors.Is(e, target)],
    [As(target)] is [errors.As(e, target)], and [cause] is what [Unwrap()]
    returns; so a target that [errors.Is] finds in [cause] but not in [e]
    is not accepted by the node's [Is].  Two nodes with the same annotation
    agree on [Is] and [As], whatever their causes. *)
Theorem C6_Is_As_annotation_only
  (caller : Frame) (cause : value) (e target : error) (tt : target_type)
  (options : list Option) :
  none_overrides options e ->
  (exists node,
      Wrap caller (Some cause) e options = Some (CheckpointVal node)
      /\ Unwrap node = Some cause
      /\ Is node target = errors_Is e target
      /\ As node tt = errors_As e tt
      /\ (errors_Is (Some cause) target = Some true ->
          errors_Is e target = Some false ->
          Is node target = Some false))
  /\ (forall c d : Checkpoint,
         err c = err d ->
         Is c target = Is d target /\ As c tt = As d tt).
Proof.
  intros H. split.
  - unfold Wrap. rewrite (apply_options_none _ _ H).
    eexists. split; [ reflexivity | ].
    unfold Unwrap, Is, As; simpl. repeat split. intros _ He. exact He.
  - intros c d E. unfold Is, As. now rewrite E.
Qed.

Lemma C6_witness :
  exists node,
    Wrap Scenario.line11 (Some Scenario.e1) (Some Scenario.e2) []
    = Some (CheckpointVal node)
    /\ Unwrap node = Some Scenario.e1
    /\ errors_Is (Some Scenario.e1) (Some Scenario.e1) = Some true
    /\ Is node (Some Scenario.e1) = Some false.
Proof.
  destruct (C6_Is_As_annotation_only Scenario.line11 Scenario.e1
              (Some Scenario.e2) (Some Scenario.e1) TError [])
    as [(node & W & U & _ & _ & I) _].
  - constructor.
  - exists node. repeat split; auto.
Defined.

(** C7 fails as stated: for an error of a type that is not comparable
    (and without an [Is] method), [errors.Is(e, e)] is false, and so is
    [From(e).Is(e)]. *)
Lemma C7_counterexample :
  exists node,
    From Scenario.line10 (Some Scenario.several) []
    = Some (CheckpointVal node)
    /\ Is node (Some Scenario.several) = Some false.
Proof. eexists. split; reflexivity. Qed.

(** C7 (amended).  For every non-nil error [e] and no overriding option,
    [From(e)] is a node whose [Unwrap()] is nil, and whose [Is(e)] is true
    when [e == e] is true (the comparison neither panics nor fails). *)
Theorem C7_From_Unwrap_Is
  (caller : Frame) (e : value) (options : list Option) :
  none_overrides options (Some e) ->
  exists node,
    From caller (Some e) options = Some (CheckpointVal node)
    /\ Unwrap node = None
    /\ (iface_eq (Some e) (Some e) = Some true ->
        Is node (Some e) = Some true).
Proof.
  intros H. unfold From. rewrite (apply_options_none _ _ H).
  eexists. split; [ reflexivity | ]. split; [ reflexivity | ].
  intros He. unfold Is; simpl err. now apply errors_Is_refl.
Qed.

Lemma C7_witness :
  exists node,
    From Scenario.line10 (Some (CheckpointVal Scenario.n2_node)) [IgnoreEOF]
    = Some (CheckpointVal node)
    /\ Unwrap node = None
    /\ Is node (Some (CheckpointVal Scenario.n2_node)) = Some true.
Proof.
  destruct (C7_From_Unwrap_Is Scenario.line10
              (CheckpointVal Scenario.n2_node) [IgnoreEOF])
    as (node & F & U & I).
  - repeat constructor.
  - exists node. split; [ exact F | ]. split; [ exact U | ].
    apply I. reflexivity.
Defined.

(** The condition of the amended C7 is on the value, not on its type:
    an error of a comparable struct type that holds an error of a
    non-comparable type panics on [e == e], and so does [From(e).Is(e)];
    an error that holds a NaN is unequal to itself, and [From(e).Is(e)]
    is false. *)
Example Is_on_values_unequal_to_themselves :
  iface_eq (Some Scenario.holder) (Some Scenario.holder) = None
  /\ Is (mkCheckpoint (Some Scenario.holder) None true "x.go" 10)
       (Some Scenario.holder) = None
  /\ iface_eq (Some Scenario.reading) (Some Scenario.reading) = Some false
  /\ Is (mkCheckpoint (Some Scenario.reading) None true "x.go" 10)
       (Some Scenario.reading) = Some false.
Proof. repeat split. Qed.

(** C8 fails as stated: in the 3-level chain an annotation [e3] of a type
    that is not comparable is not accepted by [n3.Is(e3)]. *)
Lemma C8_counterexample :
  exists n3,
    Wrap Scenario.line11
      (Wrap Scenario.line11 (From Scenario.line10 (Some Scenario.e1) [])
         (Some Scenario.e2) [])
      (Some Scenario.several) []
    = Some (CheckpointVal n3)
    /\ Is n3 (Some Scenario.several) = Some false.
Proof. eexists. split; reflexivity. Qed.

(** C8 (amended).  Let [e1] be non-nil with [e1 == e1] true, and [e3]
    nil or with [e3 == e3] true.  Over a nil base,
    [Wrap(Wrap(Wrap(nil, e0), e1), e2)] is nil and [errors.Is] does not find
    [e1] in it; over a non-nil base [errors.Is] finds [e1] in the same
    nesting.  For [n3 = Wrap(Wrap(From(e1), e2), e3)]: [n3.Is(e3)] is true,
    and two [Unwrap()] steps from [n3] reach a node whose [Is(e1)] is
    true. *)
Theorem C8_chain_depth
  (f0 f1 f2 f3 : Frame) (e0 e2 e3 : error) (e1 base : value) :
  iface_eq (Some e1) (Some e1) = Some true ->
  iface_eq e3 e3 = Some true ->
  (Wrap f2 (Wrap f1 (Wrap f0 None e0 []) (Some e1) []) e2 [] = None
   /\ errors_Is None (Some e1) = Some false)
  /\ errors_Is
       (Wrap f2 (Wrap f1 (Wrap f0 (Some base) e0 []) (Some e1) []) e2 [])
       (Some e1) = Some true
  /\ (exists n3 n2 n1,
         Wrap f3 (Wrap f2 (From f1 (Some e1) []) e2 []) e3 []
         = Some (CheckpointVal n3)
         /\ Is n3 e3 = Some true
         /\ Unwrap n3 = Some (CheckpointVal n2)
         /\ Unwrap n2 = Some (CheckpointVal n1)
         /\ Is n1 (Some e1) = Some true).
Proof.
  intros H1 H3. change (value_eq e1 e1 = Some true) in H1.
  pose proof (self_equal_never_panics e1 H1) as T1.
  split; [ split; reflexivity | ]. split.
  - unfold Wrap; simpl apply_options; cbv iota.
    apply errors_Is_via_Unwrap; [ exact T1 | ]. unfold Unwrap; simpl prev.
    apply errors_Is_via_Is; [ exact T1 | ]. unfold Is; simpl err.
    now apply errors_Is_refl.
  - unfold Wrap, From; simpl apply_options; cbv iota.
    do 3 eexists. split; [ reflexivity | ].
    repeat split; unfold Is; cbn [err].
    + destruct e3 as [v3 | ]; [ | reflexivity ].
      apply errors_Is_refl. exact H3.
    + now apply errors_Is_refl.
Qed.

Lemma C8_witness :
  errors_Is
    (Wrap Scenario.line11
       (Wrap Scenario.line11
          (Wrap Scenario.line10 (Some io_EOF) None []) (Some Scenario.e1) [])
       (Some Scenario.several) [])
    (Some Scenario.e1) = Some true.
Proof.
  apply (C8_chain_depth Scenario.line10 Scenario.line11 Scenario.line11
           Scenario.line11 None (Some Scenario.several) (Some Scenario.e2)
           Scenario.e1 io_EOF); reflexivity.
Defined.

(** C10.  Both builders run the options before they test for nil: an
    option that overrides decides the result of [Wrap] also when [prev] is
    nil, and the result of [From] also when [err] is nil (the option is
    then called with nil). *)
Theorem C10_options_before_nil_checks
  (caller : Frame) (err : error) (pre post : list Option) (o : Option)
  (v : value) :
  (none_overrides pre err -> o err = Some v ->
     Wrap caller None err (pre ++ o :: post) = Some v)
  /\ (none_overrides pre None -> o None = Some v ->
        From caller None (pre ++ o :: post) = Some v
        /\ From caller None [o] = o None).
Proof.
  split.
  - intros Hpre Ho. unfold Wrap.
    now rewrite (apply_options_first pre post o err v Hpre Ho).
  - intros Hpre Ho. unfold From.
    rewrite (apply_options_first pre post o None v Hpre Ho).
    simpl. now rewrite Ho.
Qed.

Lemma C10_witness :
  Wrap Scenario.line11 None (Some Scenario.e1)
    ([Scenario.pass] ++ Scenario.always_busy :: []) = Some Scenario.busy
  /\ From Scenario.line10 None
       ([Scenario.pass] ++ Scenario.always_busy :: []) = Some Scenario.busy.
Proof.
  destruct (C10_options_before_nil_checks Scenario.line11
              (Some Scenario.e1) [Scenario.pass] [] Scenario.always_busy
              Scenario.busy) as [W _].
  destruct (C10_options_before_nil_checks Scenario.line10
              None [Scenario.pass] [] Scenario.always_busy
              Scenario.busy) as [_ F].
  split.
  - apply W; [ repeat constructor | reflexivity ].
  - apply F; [ repeat constructor | reflexivity ].
Defined.

(** ** Chains of any depth *)

Lemma Wrap_node (caller : Frame) (b : value) (e : error) :
  Wrap caller (Some b) e []
  = Some (CheckpointVal
            (mkCheckpoint e (Some b) (frame_ok caller)
               (filepath_Base (frame_file caller)) (frame_line caller))).
Proof. reflexivity. Qed.

(** What [errors.Is] finds in the base it finds in the chain. *)
Lemma errors_Is_wraps_base (t : value) (steps : list (Frame * error)) :
  never_panics t ->
  forall base,
    errors_Is base (Some t) = Some true ->
    errors_Is (wraps base steps) (Some t) = Some true.
Proof.
  intros Ht.
  induction steps as [ | [caller e] rest IH]; intros base H; simpl wraps;
    [ exact H | ].
  apply IH. destruct base as [b | ]; [ | discriminate H ].
  rewrite Wrap_node. now apply errors_Is_via_Unwrap.
Qed.

(** X1.  In a chain grown by any number of [Wrap] calls over a non-nil
    base, [errors.Is] finds every target (comparable with itself) that it
    finds in the base or in the error attached at one of the steps: no
    level hides another. *)
Theorem X1_Is_finds_every_level
  (b t : value) (steps : list (Frame * error)) :
  comparable t = true ->
  errors_Is (Some b) (Some t) = Some true
  \/ (exists caller e,
         In (caller, e) steps /\ errors_Is e (Some t) = Some true) ->
  errors_Is (wraps (Some b) steps) (Some t) = Some true.
Proof.
  intros _ [Hb | (caller & e & Hin & He)].
  - apply errors_Is_wraps_base; [ | exact Hb ].
    exact (errors_Is_found_never_panics _ _ Hb).
  - revert b. induction steps as [ | [caller' e'] rest IH]; intros b;
      [ destruct Hin | ].
    simpl wraps. rewrite Wrap_node.
    destruct Hin as [E | Hin].
    + injection E as -> ->.
      pose proof (errors_Is_found_never_panics _ _ He) as Ht.
      apply errors_Is_wraps_base; [ exact Ht | ].
      now apply errors_Is_via_Is.
    + now apply IH.
Qed.

Lemma X1_witness :
  errors_Is
    (wraps (Some io_EOF)
       [(Scenario.line10, Some Scenario.e1);
        (Scenario.line11, None);
        (Scenario.line11, Some Scenario.several)])
    (Some Scenario.e1) = Some true.
Proof.
  apply (X1_Is_finds_every_level io_EOF Scenario.e1
           [(Scenario.line10, Some Scenario.e1);
            (Scenario.line11, None);
            (Scenario.line11, Some Scenario.several)]).
  - reflexivity.
  - right. exists Scenario.line10, (Some Scenario.e1). split.
    + left; reflexivity.
    + reflexivity.
Defined.

(** X2.  A chain grown by [k] calls of [Wrap] over a non-nil base gives
    the base back after exactly [k] steps of [errors.Unwrap]; after fewer
    steps it gives a [Checkpoint] value. *)
Theorem X2_Unwrap_walks_to_base (b : value) (steps : list (Frame * error)) :
  Nat.iter (List.length steps) errors_Unwrap (wraps (Some b) steps) = Some b
  /\ (forall k, k < List.length steps ->
        exists node,
          Nat.iter k errors_Unwrap (wraps (Some b) steps)
          = Some (CheckpointVal node)).
Proof.
  revert b. induction steps as [ | [caller e] rest IH]; intros b.
  - split; [ reflexivity | intros k Hk; inversion Hk ].
  - simpl wraps. rewrite Wrap_node.
    destruct (IH (CheckpointVal
                    (mkCheckpoint e (Some b) (frame_ok caller)
                       (filepath_Base (frame_file caller))
                       (frame_line caller)))) as [Hall Hfew].
    split.
    + simpl List.length. simpl Nat.iter. rewrite Hall. reflexivity.
    + intros k Hk. simpl List.length in Hk.
      destruct (Nat.eq_dec k (List.length rest)) as [-> | Hne].
      * eexists. exact Hall.
      * apply Hfew. lia.
Qed.

Lemma X2_witness :
  exists node,
    Nat.iter 1 errors_Unwrap
      (wraps (Some io_EOF)
         [(Scenario.line10, Some Scenario.e1); (Scenario.line11, None)])
    = Some (CheckpointVal node).
Proof.
  destruct (X2_Unwrap_walks_to_base io_EOF
              [(Scenario.line10, Some Scenario.e1); (Scenario.line11, None)])
    as [_ few].
  apply few. simpl. lia.
Defined.

(** X3.  With a target that is nil, or for which [target == target] is
    true, the method [Is] of a node and [errors.Is] on any error return an
    answer: none of the comparisons they make against the target panics,
    whatever the errors compared with it hold. *)
Theorem X3_Is_does_not_panic (c : Checkpoint) (e target : error) :
  iface_eq target target = Some true ->
  (exists b, Is c target = Some b)
  /\ (exists b, errors_Is e target = Some b).
Proof.
  intros Ht. destruct target as [t | ].
  - apply self_equal_never_panics in Ht.
    split; [ unfold Is | ]; now apply errors_Is_total.
  - split; [ unfold Is; destruct (err c) | destruct e ]; simpl;
      eexists; reflexivity.
Qed.

Lemma X3_witness :
  (exists b,
      Is (mkCheckpoint (Some Scenario.holder) None true "x.go" 10)
        (Some (CheckpointVal Scenario.node)) = Some b)
  /\ (exists b,
         errors_Is (Some Scenario.holder)
           (Some (CheckpointVal Scenario.node)) = Some b).
Proof.
  apply (X3_Is_does_not_panic
           (mkCheckpoint (Some Scenario.holder) None true "x.go" 10)
           (Some Scenario.holder)
           (Some (CheckpointVal Scenario.node))).
  reflexivity.
Defined.

(** X4.  A node whose annotation has a type that is not comparable cannot
    be used as a target against itself: [Checkpoint] is a comparable
    struct, so [errors.Is(n, n)] compares the two structs field by field
    and panics on the annotation. *)
Theorem X4_Is_panics_on_uncomparable_annotation
  (caller : Frame) (ty : gotype) (key : content) (msg : string)
  (inner : error)
  (options : list Option) :
  ty_comparable ty = false ->
  none_overrides options (Some (Foreign ty key msg inner)) ->
  exists node,
    From caller (Some (Foreign ty key msg inner)) options
    = Some (CheckpointVal node)
    /\ errors_Is (Some (CheckpointVal node)) (Some (CheckpointVal node))
       = None.
Proof.
  intros Hty H. unfold From. rewrite (apply_options_none _ _ H).
  eexists. split; [ reflexivity | ].
  unfold errors_Is, type_comparable. rewrite is_loop_CheckpointVal.
  simpl. now rewrite gotype_eqb_refl, Hty.
Qed.

Lemma X4_witness :
  exists node,
    From Scenario.line10 (Some Scenario.several) [IgnoreEOF]
    = Some (CheckpointVal node)
    /\ errors_Is (Some (CheckpointVal node)) (Some (CheckpointVal node))
       = None.
Proof.
  apply (X4_Is_panics_on_uncomparable_annotation Scenario.line10
           MultiError (Word 0) "several errors" None [IgnoreEOF]).
  - reflexivity.
  - repeat constructor.
Defined.

(** ** errors.As on nodes and chains *)

Lemma as_loop_Foreign tt ty k m i :
  as_loop tt (Foreign ty k m i)
  = if assignable (Foreign ty k m i) tt then Some (Foreign ty k m i)
    else errors_As i tt.
Proof. reflexivity. Qed.

Lemma as_loop_CheckpointVal tt c :
  as_loop tt (CheckpointVal c)
  = if assignable (CheckpointVal c) tt then Some (CheckpointVal c)
    else match As c tt with
         | Some v => Some v
         | None => errors_As (Unwrap c) tt
         end.
Proof. reflexivity. Qed.

Lemma as_loop_CheckpointPtr tt a c :
  as_loop tt (CheckpointPtr a c)
  = if assignable (CheckpointPtr a c) tt then Some (CheckpointPtr a c)
    else match As c tt with
         | Some v => Some v
         | None => errors_As (Unwrap c) tt
         end.
Proof. reflexivity. Qed.

(** A node passes on what [errors.As] finds in its annotation or,
    failing that, in its cause. *)
Lemma errors_As_node (tt : target_type) (c : Checkpoint) :
  (exists v, errors_As (err c) tt = Some v)
  \/ (exists v, errors_As (prev c) tt = Some v) ->
  exists v, errors_As (Some (CheckpointVal c)) tt = Some v.
Proof.
  intros H.
  change (errors_As (Some (CheckpointVal c)) tt)
    with (as_loop tt (CheckpointVal c)).
  rewrite as_loop_CheckpointVal.
  destruct (assignable (CheckpointVal c) tt); [ eexists; reflexivity | ].
  unfold As, Unwrap.
  destruct (errors_As (err c) tt) as [w | ] eqn:E; [ eexists; reflexivity | ].
  destruct H as [[v H] | H]; [ discriminate H | exact H ].
Qed.

Lemma errors_As_wraps_base (tt : target_type) (steps : list (Frame * error)) :
  forall base,
    (exists v, errors_As base tt = Some v) ->
    exists v, errors_As (wraps base steps) tt = Some v.
Proof.
  induction steps as [ | [caller e] rest IH]; intros base H; simpl wraps;
    [ exact H | ].
  apply IH. destruct base as [b | ]; [ | destruct H as [v H]; discriminate H ].
  rewrite Wrap_node. apply errors_As_node. right. exact H.
Qed.

(** X6.  In a chain grown by any number of [Wrap] calls over a non-nil
    base, [errors.As] succeeds for every target type for which it succeeds
    on the base or on the error attached at one of the steps. *)
Theorem X6_As_finds_every_level
  (b : value) (tt : target_type) (steps : list (Frame * error)) :
  (exists v, errors_As (Some b) tt = Some v)
  \/ (exists caller e v, In (caller, e) steps /\ errors_As e tt = Some v) ->
  exists v, errors_As (wraps (Some b) steps) tt = Some v.
Proof.
  intros [Hb | (caller & e & v & Hin & He)].
  - now apply errors_As_wraps_base.
  - revert b. induction steps as [ | [caller' e'] rest IH]; intros b;
      [ destruct Hin | ].
    simpl wraps. rewrite Wrap_node.
    destruct Hin as [E | Hin].
    + injection E as -> ->.
      apply errors_As_wraps_base, errors_As_node.
      left. now exists v.
    + now apply IH.
Qed.

Lemma X6_witness :
  exists v,
    errors_As
      (wraps (Some Scenario.several)
         [(Scenario.line10, None); (Scenario.line11, Some Scenario.e1)])
      (TForeign MultiError) = Some v.
Proof.
  apply (X6_As_finds_every_level Scenario.several (TForeign MultiError)
           [(Scenario.line10, None); (Scenario.line11, Some Scenario.e1)]).
  left. exists Scenario.several. reflexivity.
Defined.

Lemma as_loop_pointer_free (v : value) :
  pointer_free v = true -> as_loop TCheckpointPtr v = None.
Proof.
  induction v as [ty k m i IH | c IHe IHp | a c _ _] using value_induction;
    intros H.
  - rewrite as_loop_Foreign. simpl assignable. cbv iota.
    destruct i as [w | ]; simpl; [ apply IH, H | reflexivity ].
  - rewrite as_loop_CheckpointVal. simpl assignable. cbv iota.
    change (pointer_free (CheckpointVal c))
      with (pointer_free_error (err c) && pointer_free_error (prev c)) in H.
    apply andb_true_iff in H as [He Hp].
    unfold As, Unwrap.
    revert IHe He IHp Hp.
    destruct (err c) as [x | ], (prev c) as [p | ]; simpl;
      intros IHe He IHp Hp; rewrite ?(IHe He); auto.
  - discriminate H.
Qed.

Lemma pointer_free_wraps (steps : list (Frame * error)) :
  Forall (fun s => pointer_free_error (snd s) = true) steps ->
  forall base,
    pointer_free_error base = true ->
    pointer_free_error (wraps base steps) = true.
Proof.
  induction 1 as [ | [caller e] rest He _ IH]; intros base Hb; simpl wraps;
    [ exact Hb | ].
  apply IH. destruct base as [b | ]; [ | reflexivity ].
  rewrite Wrap_node. simpl in He, Hb |- *.
  change (pointer_free_error e && pointer_free b = true).
  now rewrite He, Hb.
Qed.

Lemma wraps_head (steps : list (Frame * error)) :
  steps <> [] ->
  forall b, exists node, wraps (Some b) steps = Some (CheckpointVal node).
Proof.
  induction steps as [ | [caller e] rest IH]; intros Hne b;
    [ contradiction | ].
  simpl wraps. rewrite Wrap_node.
  destruct rest as [ | s rest']; [ eexists; reflexivity | ].
  apply IH. discriminate.
Qed.

Lemma errors_As_CheckpointVal (tt : target_type) (c : Checkpoint) :
  errors_As (Some (CheckpointVal c)) tt
  = if assignable (CheckpointVal c) tt then Some (CheckpointVal c)
    else match As c tt with
         | Some v => Some v
         | None => errors_As (Unwrap c) tt
         end.
Proof. reflexivity. Qed.

(** X5.  On a chain grown by [Wrap], for a target type that a
    [Checkpoint] does not fit (a foreign concrete type, [**Checkpoint], an
    interface that [Checkpoint] does not implement), [errors.As] stores
    what it finds in the error attached at the newest step that has a
    match, and else what it finds in the base: the annotation of a node
    goes before its cause.  For a target type that a [Checkpoint] fits
    ([*Checkpoint], [error], an interface it implements), it stores the
    newest node. *)
Theorem X5_As_newest_first
  (b : value) (tt : target_type) (steps : list (Frame * error)) :
  ((forall c, assignable (CheckpointVal c) tt = false) ->
   errors_As (wraps (Some b) steps) tt
   = fold_left (newest_match tt) steps (errors_As (Some b) tt))
  /\ ((forall c, assignable (CheckpointVal c) tt = true) ->
      steps <> [] ->
      errors_As (wraps (Some b) steps) tt = wraps (Some b) steps).
Proof.
  split.
  - intros H. revert b.
    induction steps as [ | [caller e] rest IH]; intros b; [ reflexivity | ].
    simpl wraps. rewrite Wrap_node, IH. cbn [fold_left]. f_equal.
    rewrite errors_As_CheckpointVal, H. reflexivity.
  - intros H Hne. destruct (wraps_head steps Hne b) as [node ->].
    now rewrite errors_As_CheckpointVal, H.
Qed.

Lemma X5_witness :
  errors_As
    (wraps (Some Scenario.e1)
       [(Scenario.line10, Some Scenario.e2); (Scenario.line11, None)])
    (TForeign errorString) = Some Scenario.e2
  /\ errors_As
       (wraps (Some Scenario.e1)
          [(Scenario.line10, Some Scenario.e2); (Scenario.line11, None)])
       (TInterface (mkInterface (fun _ => false) true))
     = Some (CheckpointVal
               (mkCheckpoint None (Some (CheckpointVal
                  (mkCheckpoint (Some Scenario.e2) (Some Scenario.e1)
                     true "x.go" 10))) true "x.go" 11)).
Proof.
  destruct (X5_As_newest_first Scenario.e1 (TForeign errorString)
              [(Scenario.line10, Some Scenario.e2); (Scenario.line11, None)])
    as [newest _].
  destruct (X5_As_newest_first Scenario.e1
              (TInterface (mkInterface (fun _ => false) true))
              [(Scenario.line10, Some Scenario.e2); (Scenario.line11, None)])
    as [_ node].
  split.
  - rewrite newest; [ reflexivity | reflexivity ].
  - rewrite node; [ reflexivity | reflexivity | discriminate ].
Defined.

(** X7.  The builders put [Checkpoint] values in a chain, never pointers.
    So on a chain grown by [Wrap] from errors that hold no [*Checkpoint],
    [errors.As] with a target of type [**Checkpoint] finds nothing, while
    with a target of type [*Checkpoint] it stores the newest node. *)
Theorem X7_As_by_value_not_by_pointer
  (b : value) (steps : list (Frame * error)) :
  pointer_free b = true ->
  Forall (fun s => pointer_free_error (snd s) = true) steps ->
  steps <> [] ->
  errors_As (wraps (Some b) steps) TCheckpointPtr = None
  /\ (exists node,
         wraps (Some b) steps = Some (CheckpointVal node)
         /\ errors_As (wraps (Some b) steps) TCheckpoint
            = Some (CheckpointVal node)).
Proof.
  intros Hb Hsteps Hne. split.
  - pose proof (pointer_free_wraps steps Hsteps (Some b) Hb) as P.
    destruct (wraps (Some b) steps) as [v | ]; [ | reflexivity ].
    now apply as_loop_pointer_free.
  - destruct (wraps_head steps Hne b) as [node ->].
    exists node. split; reflexivity.
Qed.

Lemma X7_witness :
  errors_As
    (wraps (Some io_EOF)
       [(Scenario.line10, Some Scenario.e1); (Scenario.line11, None)])
    TCheckpointPtr = None.
Proof.
  apply (X7_As_by_value_not_by_pointer io_EOF
           [(Scenario.line10, Some Scenario.e1); (Scenario.line11, None)]).
  - reflexivity.
  - repeat constructor.
  - discriminate.
Defined.

(** ** IgnoreEOF *)

Lemma is_true_Some (r : option bool) : is_true r = true -> r = Some true.
Proof. destruct r as [[ | ] | ]; simpl; congruence. Qed.

(** X8.  [IgnoreEOF] matches by identity only.  What it returns is one of
    the two sentinels, and [==] to its argument; it returns nil for nil,
    for every [Checkpoint] and [*Checkpoint] (also one that wraps a
    sentinel), and for every error of a type other than that of the
    sentinels (also one whose [Unwrap] leads to a sentinel). *)
Theorem X8_IgnoreEOF_identity_only :
  (forall err v,
      IgnoreEOF err = Some v ->
      (v = io_EOF \/ v = io_ErrUnexpectedEOF)
      /\ iface_eq err (Some v) = Some true)
  /\ IgnoreEOF None = None
  /\ (forall c, IgnoreEOF (Some (CheckpointVal c)) = None)
  /\ (forall a c, IgnoreEOF (Some (CheckpointPtr a c)) = None)
  /\ (forall ty key msg inner,
         gotype_eqb ty errorString = false ->
         IgnoreEOF (Some (Foreign ty key msg inner)) = None).
Proof.
  split; [ | repeat split; try reflexivity ].
  - intros x v H. unfold IgnoreEOF in H.
    destruct (is_true (iface_eq x (Some io_EOF))) eqn:E1.
    + injection H as <-. split; [ now left | now apply is_true_Some ].
    + destruct (is_true (iface_eq x (Some io_ErrUnexpectedEOF))) eqn:E2;
        [ | discriminate ].
      injection H as <-. split; [ now right | now apply is_true_Some ].
  - intros ty key msg inner Hty. unfold IgnoreEOF, iface_eq; simpl.
    now rewrite Hty.
Qed.

Lemma X8_witness :
  (io_ErrUnexpectedEOF = io_EOF \/ io_ErrUnexpectedEOF = io_ErrUnexpectedEOF)
  /\ iface_eq (Some io_ErrUnexpectedEOF) (Some io_ErrUnexpectedEOF)
     = Some true.
Proof.
  destruct X8_IgnoreEOF_identity_only as [only _].
  apply (only (Some io_ErrUnexpectedEOF) io_ErrUnexpectedEOF).
  reflexivity.
Defined.

(** X9.  In [Wrap] the options see [err], not [prev]: with [IgnoreEOF] and
    a sentinel as the cause, [Wrap] does not hand the sentinel back but
    builds a node around it, unless [err] is itself a sentinel.  The node
    is not [==] to the sentinel; [errors.Is] still finds the sentinel. *)
Theorem X9_Wrap_IgnoreEOF_wraps_the_cause
  (caller : Frame) (sentinel : value) (e : error) :
  sentinel = io_EOF \/ sentinel = io_ErrUnexpectedEOF ->
  IgnoreEOF e = None ->
  exists node,
    Wrap caller (Some sentinel) e [IgnoreEOF] = Some (CheckpointVal node)
    /\ Unwrap node = Some sentinel
    /\ iface_eq (Some (CheckpointVal node)) (Some sentinel) = Some false
    /\ errors_Is (Some (CheckpointVal node)) (Some sentinel) = Some true.
Proof.
  intros Hs He. unfold Wrap. simpl apply_options. rewrite He.
  eexists. split; [ reflexivity | ]. split; [ reflexivity | ].
  assert (Hc : value_eq sentinel sentinel = Some true)
    by (destruct Hs as [-> | ->]; reflexivity).
  split.
  - destruct Hs as [-> | ->]; reflexivity.
  - apply errors_Is_via_Unwrap; [ now apply self_equal_never_panics | ].
    unfold Unwrap; cbn [prev]. now apply errors_Is_refl.
Qed.

Lemma X9_witness :
  exists node,
    Wrap Scenario.line11 (Some io_EOF) (Some Scenario.e1) [IgnoreEOF]
    = Some (CheckpointVal node)
    /\ Unwrap node = Some io_EOF
    /\ iface_eq (Some (CheckpointVal node)) (Some io_EOF) = Some false
    /\ errors_Is (Some (CheckpointVal node)) (Some io_EOF) = Some true.
Proof.
  apply (X9_Wrap_IgnoreEOF_wraps_the_cause Scenario.line11 io_EOF
           (Some Scenario.e1)).
  - left; reflexivity.
  - reflexivity.
Defined.

(** ** File names *)

Lemma append_empty_r (s : string) : s ++ "" = s.
Proof. induction s as [ | c s IH]; simpl; [ reflexivity | now rewrite IH ]. Qed.

Lemma append_assoc (a b c : string) : (a ++ b) ++ c = a ++ (b ++ c).
Proof. induction a as [ | x a IH]; simpl; [ reflexivity | now rewrite IH ]. Qed.

Lemma bytes_of_append (a b : string) :
  bytes_of (a ++ b) = (bytes_of a ++ bytes_of b)%list.
Proof.
  unfold bytes_of.
  induction a as [ | x a IH]; simpl; [ reflexivity | now rewrite IH ].
Qed.

Lemma last_element_no_separator (l : list ascii) :
  Forall (fun c => IsPathSeparator c = false) (last_element l).
Proof.
  induction l as [ | c l IH]; simpl; [ constructor | ].
  destruct (IsPathSeparator c) eqn:E; constructor; assumption.
Qed.

(** The last element of [... "/" name], read from the end, is [name]. *)
Lemma last_element_app (nm rest : list ascii) :
  Forall (fun c => IsPathSeparator c = false) nm ->
  last_element (nm ++ "/"%char :: rest) = nm.
Proof.
  induction 1 as [ | c nm Hc _ IH]; simpl; [ reflexivity | ].
  now rewrite Hc, IH.
Qed.

Lemma filepath_Base_shape (path : string) :
  filepath_Base path <> ""
  /\ (filepath_Base path = "/" \/ no_separator (filepath_Base path)).
Proof.
  unfold filepath_Base.
  destruct path as [ | c path].
  - split; [ discriminate | right; repeat constructor ].
  - destruct (rev (last_element (drop_separators (rev (bytes_of (String c path))))))
      as [ | x elem] eqn:E.
    + split; [ discriminate | now left ].
    + split; [ discriminate | right ].
      unfold no_separator, bytes_of, string_of.
      rewrite list_ascii_of_string_of_list_ascii, <- E.
      apply Forall_rev, last_element_no_separator.
Qed.

Lemma filepath_Base_name (dir name : string) :
  name <> "" -> no_separator name ->
  filepath_Base (dir ++ "/" ++ name) = name.
Proof.
  intros Hne Hsep. unfold filepath_Base.
  destruct (dir ++ "/" ++ name) as [ | c p] eqn:E.
  { destruct dir; discriminate E. }
  rewrite <- E. clear E c p.
  rewrite bytes_of_append, bytes_of_append, rev_app_distr, rev_app_distr.
  simpl rev at 2. rewrite <- app_assoc. simpl app.
  assert (Hrev : Forall (fun c => IsPathSeparator c = false)
                   (rev (bytes_of name))) by now apply Forall_rev.
  assert (Hcons : exists x l, rev (bytes_of name) = x :: l).
  { destruct (rev (bytes_of name)) as [ | x l] eqn:R; [ | now exists x, l ].
    exfalso. apply Hne.
    apply (f_equal (@rev ascii)) in R. rewrite rev_involutive in R.
    unfold bytes_of in R. rewrite <- (string_of_list_ascii_of_string name).
    now rewrite R. }
  destruct Hcons as (x & l & R).
  assert (Hdrop : drop_separators (rev (bytes_of name) ++ "/"%char :: rev (bytes_of dir))
                  = (rev (bytes_of name) ++ "/"%char :: rev (bytes_of dir))%list).
  { rewrite R in Hrev |- *. simpl. inversion Hrev as [ | ? ? Hx _]; subst.
    now rewrite Hx. }
  rewrite Hdrop, (last_element_app _ _ Hrev), rev_involutive.
  unfold bytes_of, string_of.
  rewrite <- (rev_involutive (list_ascii_of_string name)).
  fold (bytes_of name). rewrite R.
  destruct (rev (x :: l)) as [ | y k] eqn:K.
  { apply (f_equal (@List.length ascii)) in K.
    rewrite length_rev in K. discriminate K. }
  rewrite <- K, <- R, rev_involutive.
  apply string_of_list_ascii_of_string.
Qed.

(** X10.  The [File()] of a node that a builder made is the base name of
    the caller's file: it is never empty, and it has no path separator
    unless it is "/" itself.  [Line()] is the caller's line. *)
Theorem X10_File_has_no_directory
  (caller : Frame) (b e : value) (options : list Option) :
  none_overrides options (Some e) ->
  exists nf nw,
    From caller (Some e) options = Some (CheckpointVal nf)
    /\ Wrap caller (Some b) (Some e) options = Some (CheckpointVal nw)
    /\ File nf = filepath_Base (frame_file caller)
    /\ File nw = filepath_Base (frame_file caller)
    /\ Line nf = frame_line caller
    /\ Line nw = frame_line caller
    /\ File nf <> ""
    /\ (File nf = "/" \/ no_separator (File nf)).
Proof.
  intros H. unfold From, Wrap. rewrite (apply_options_none _ _ H).
  do 2 eexists. do 6 (split; [ reflexivity | ]).
  apply filepath_Base_shape.
Qed.

Lemma X10_witness :
  exists nf nw,
    From Scenario.line10 (Some Scenario.e1) [IgnoreEOF]
    = Some (CheckpointVal nf)
    /\ Wrap Scenario.line10 (Some io_EOF) (Some Scenario.e1) [IgnoreEOF]
       = Some (CheckpointVal nw)
    /\ File nf = "x.go" /\ File nw = "x.go"
    /\ Line nf = 10%Z /\ Line nw = 10%Z
    /\ File nf <> ""
    /\ (File nf = "/" \/ no_separator (File nf)).
Proof.
  apply (X10_File_has_no_directory Scenario.line10 io_EOF Scenario.e1
           [IgnoreEOF]).
  repeat constructor.
Defined.

(** X11.  When the caller's file is [dir/name], with a non-empty [name]
    that has no separator, [File()] of the node is [name], whatever [dir]
    is. *)
Theorem X11_File_is_the_base_name
  (dir name : string) (l : Z) (ok : bool) (b : value) (e : error) :
  name <> "" -> no_separator name ->
  exists node,
    Wrap (mkFrame (dir ++ "/" ++ name) l ok) (Some b) e []
    = Some (CheckpointVal node)
    /\ File node = name /\ Line node = l.
Proof.
  intros Hne Hsep. rewrite Wrap_node. eexists.
  split; [ reflexivity | ]. split; [ | reflexivity ].
  unfold File; cbn [file frame_file]. now apply filepath_Base_name.
Qed.

Lemma X11_witness :
  exists node,
    Wrap (mkFrame ("/home/dev/project" ++ "/" ++ "x.go") 11 true)
      (Some io_EOF) None []
    = Some (CheckpointVal node)
    /\ File node = "x.go" /\ Line node = 11%Z.
Proof.
  apply (X11_File_is_the_base_name "/home/dev/project" "x.go" 11 true
           io_EOF None).
  - discriminate.
  - repeat constructor.
Defined.

(** X12.  When the caller cannot be recovered ([callerOk] false), the
    rendering says "File: unknown" and shows neither file nor line, but
    [File()] and [Line()] still answer from the fields: with the zero
    values that [runtime.Caller] then reports, [File()] is "." and
    [Line()] is 0. *)
Theorem X12_unknown_caller
  (caller : Frame) (e : value) (options : list Option) :
  frame_ok caller = false ->
  none_overrides options (Some e) ->
  exists node,
    From caller (Some e) options = Some (CheckpointVal node)
    /\ Error node = "File: unknown" ++ nl ++ tab ++ value_Error e ++ nl
    /\ File node = filepath_Base (frame_file caller)
    /\ Line node = frame_line caller
    /\ (caller = no_caller -> File node = "." /\ Line node = 0%Z).
Proof.
  intros Hok H. unfold From. rewrite (apply_options_none _ _ H).
  eexists. split; [ reflexivity | ]. split.
  - unfold Error, Error_with. cbn [callerOk prev err fmt_v]. rewrite Hok.
    now rewrite append_empty_r.
  - split; [ reflexivity | ]. split; [ reflexivity | ].
    intros ->. split; reflexivity.
Qed.

Lemma X12_witness :
  exists node,
    From no_caller (Some Scenario.e1) [IgnoreEOF] = Some (CheckpointVal node)
    /\ Error node = "File: unknown" ++ nl ++ tab ++ "A" ++ nl
    /\ File node = "." /\ Line node = 0%Z.
Proof.
  destruct (X12_unknown_caller no_caller Scenario.e1 [IgnoreEOF])
    as (node & F & E & _ & _ & Z).
  - reflexivity.
  - repeat constructor.
  - exists node. destruct (Z eq_refl) as [Zf Zl]. repeat split; assumption.
Defined.

(** ** The rendering of a cause *)

(** The rendering of a node is that of the same node without a cause,
    followed by the block of the cause. *)
Lemma Error_split (e : error) (b : value) (ok : bool) (f : string) (l : Z) :
  Error (mkCheckpoint e (Some b) ok f l)
  = Error (mkCheckpoint e None ok f l)
    ++ (if is_CheckpointPtr b then value_Error b
        else "File: unknown" ++ nl ++ tab
             ++ strings_ReplaceAll (value_Error b) nl (nl ++ tab)).
Proof.
  unfold Error, Error_with. cbn [prev callerOk err file line].
  destruct ok; repeat rewrite append_assoc; reflexivity.
Qed.

Lemma HasPrefix_empty (s : string) : strings_HasPrefix s "" = true.
Proof. destruct s; reflexivity. Qed.

(** [strings.ReplaceAll(s, "\n", new)], one byte at a time. *)
Lemma ReplaceAll_newline_step (c : ascii) (s new : string) :
  strings_ReplaceAll (String c s) nl new
  = if Ascii.eqb c "010"%char then new ++ strings_ReplaceAll s nl new
    else String c (strings_ReplaceAll s nl new).
Proof.
  unfold strings_ReplaceAll, nl. simpl.
  now rewrite HasPrefix_empty, andb_true_r.
Qed.

Lemma ReplaceAll_single_line (s new : string) :
  single_line s = true -> strings_ReplaceAll s nl new = s.
Proof.
  induction s as [ | c s IH]; [ reflexivity | ].
  simpl single_line. intros H. apply andb_true_iff in H as [Hc Hs].
  rewrite ReplaceAll_newline_step.
  apply negb_true_iff in Hc. rewrite Hc. now rewrite IH.
Qed.

Lemma ReplaceAll_tab_after_newlines (s : string) :
  tab_after_newlines (strings_ReplaceAll s nl (nl ++ tab)) = true.
Proof.
  induction s as [ | c s IH]; [ reflexivity | ].
  rewrite ReplaceAll_newline_step.
  destruct (Ascii.eqb c "010"%char) eqn:E.
  - set (R := strings_ReplaceAll s nl (nl ++ tab)) in *.
    unfold nl, tab. simpl. now rewrite HasPrefix_empty.
  - set (R := strings_ReplaceAll s nl (nl ++ tab)) in *.
    simpl. now rewrite E, IH.
Qed.

(** X13.  At one call site, the rendering of [Wrap(b, a)] is the rendering
    of [From(a)] followed by the block of the cause [b]: the rendering of
    [b] as it is when [b] is a [*Checkpoint], else "File: unknown\n\t"
    and the rendering of [b] with a tab after each newline. *)
Theorem X13_render_Wrap_is_From_then_cause (caller : Frame) (a b : value) :
  exists nw nf,
    Wrap caller (Some b) (Some a) [] = Some (CheckpointVal nw)
    /\ From caller (Some a) [] = Some (CheckpointVal nf)
    /\ Error nw
       = Error nf
         ++ (if is_CheckpointPtr b then value_Error b
             else "File: unknown" ++ nl ++ tab
                  ++ strings_ReplaceAll (value_Error b) nl (nl ++ tab)).
Proof.
  do 2 eexists. split; [ reflexivity | ]. split; [ reflexivity | ].
  apply Error_split.
Qed.

(** X14.  In the rendering of a node whose cause is not a [*Checkpoint],
    the block of the cause starts with "File: unknown\n\t", every newline
    in it is followed by a tab, and a cause that renders on a single line
    appears in it unchanged. *)
Theorem X14_cause_block_is_indented (caller : Frame) (b : value) (e : error) :
  is_CheckpointPtr b = false ->
  exists node block,
    Wrap caller (Some b) e [] = Some (CheckpointVal node)
    /\ Error node
       = Error (mkCheckpoint e None (callerOk node) (file node) (line node))
         ++ block
    /\ strings_HasPrefix block ("File: unknown" ++ nl ++ tab) = true
    /\ tab_after_newlines block = true
    /\ (single_line (value_Error b) = true ->
        block = "File: unknown" ++ nl ++ tab ++ value_Error b).
Proof.
  intros Hb. rewrite Wrap_node. do 2 eexists.
  split; [ reflexivity | ]. cbn [callerOk file line].
  split; [ rewrite Error_split, Hb; reflexivity | ].
  split; [ unfold nl, tab; simpl; apply HasPrefix_empty | ].
  split.
  - pose proof (ReplaceAll_tab_after_newlines (value_Error b)) as T.
    set (R := strings_ReplaceAll (value_Error b) nl (nl ++ tab)) in *.
    unfold nl, tab. simpl. now rewrite HasPrefix_empty.
  - intros Hs. now rewrite ReplaceAll_single_line.
Qed.

Lemma X14_witness :
  exists node block,
    Wrap Scenario.line11 (Some Scenario.several) None []
    = Some (CheckpointVal node)
    /\ Error node
       = Error (mkCheckpoint None None (callerOk node) (file node) (line node))
         ++ block
    /\ strings_HasPrefix block ("File: unknown" ++ nl ++ tab) = true
    /\ tab_after_newlines block = true
    /\ block = "File: unknown" ++ nl ++ tab ++ "several errors".
Proof.
  destruct (X14_cause_block_is_indented Scenario.line11 Scenario.several None)
    as (node & block & W & E & P & T & S).
  - reflexivity.
  - exists node, block. repeat split; try assumption.
    apply S. reflexivity.
Defined.
